(** * Entanglement-rate model and optimal-path search of [src/main/app.py]

    A shallow embedding of the [QuantumNetwork] class and of the two
    module-level search functions, followed by the properties of the
    specification that were checked against it.

    Numbers.  The rate formulas are embedded twice.  At top level they are
    read over the exact reals [R] of the Standard Library ([+], [*], [/],
    [max] and [exp] the real ones): this reading carries the statements about
    the expressions themselves, and the rates that [end_to_end_rate] and
    [find_optimal_path] pass around, whose values no statement about the
    search depends on.  [Module Binary64] is [link_entanglement_rate] as the
    interpreter computes it, on IEEE-754 binary64 numbers with rounding,
    underflow, infinities and NaN, the exceptions of Python's float
    operators, and [np.exp] as a parameter: it carries the statements about
    the value the code returns.

    Control.  The interpreter's recursion limit is the [fuel] argument of the
    recursive functions: a call made with no frame left raises
    [RecursionError], exactly as CPython does.  Dictionary and list
    subscripts raise [KeyError] and [IndexError]; Python's float division
    and power raise [ZeroDivisionError] and [OverflowError]. *)

From Stdlib Require Import Reals Lra Lia.
From Stdlib Require Floats.
From stdpp Require Import base option list gmap strings.

Set Warnings "-clear-no-such-hyp,-inexact-float".

(** ** Exceptions and the result monad *)

Inductive exn : Set :=
  | RecursionError
  | KeyError
  | IndexError
  | ZeroDivisionError
  | OverflowError.

Inductive result (A : Type) : Type :=
  | Ok (a : A)
  | Raise (e : exn).
Arguments Ok {A} a.
Arguments Raise {A} e.

#[global] Instance result_ret : MRet result := λ A a, Ok a.
#[global] Instance result_bind : MBind result := λ A B f m,
  match m with
  | Ok a => f a
  | Raise e => Raise e
  end.

(** [d[k]] on a dictionary. *)
Definition getitem `{Countable K} {V} (d : gmap K V) (k : K) : result V :=
  match d !! k with
  | Some v => Ok v
  | None => Raise KeyError
  end.

(** [l[i]] on a list, for a non-negative index. *)
Definition index {A} (l : list A) (i : nat) : result A :=
  match l !! i with
  | Some x => Ok x
  | None => Raise IndexError
  end.

(** [for x in l: acc = body(acc, x)], stopping at the first exception. *)
Fixpoint for_loop {A B} (l : list A) (acc : B) (body : B → A → result B)
    : result B :=
  match l with
  | [] => Ok acc
  | x :: l' => acc' ← body acc x; for_loop l' acc' body
  end.

(** [itertools.combinations(l, 2)]: the pairs of positions [i < j], in
    lexicographic order of the positions. *)
Fixpoint combinations2 {A} (l : list A) : list (A * A) :=
  match l with
  | [] => []
  | x :: l' => map (pair x) l' ++ combinations2 l'
  end.

(** ** The physical parameters *)

Record QuantumNetwork : Type := {
  p_ht : R;   (* atom-photon entanglement probability *)
  v_h : R;    (* herald detector efficiency *)
  v_t : R;    (* telecom detector efficiency *)
  v_o : R;    (* optical BSM efficiency *)
  v_a : R;    (* atomic BSM efficiency *)
  L0 : R;     (* attenuation length *)
  c_f : R;    (* light speed in fiber *)
  tau_p : R;  (* atom pulse duration *)
  tau_h : R;  (* herald detection time *)
  tau_t : R;  (* telecom detection time *)
  tau_d : R;  (* atom cooling time *)
  tau_o : R;  (* optical BSM duration *)
  tau_a : R;  (* atomic BSM duration *)
  T_ch : R    (* quantum memory coherence time *)
}.

(** [QuantumNetwork.__init__]. *)
Definition init : QuantumNetwork := {|
  p_ht := 0.53;
  v_h := 0.8;
  v_t := 0.8;
  v_o := 0.39;
  v_a := 0.39;
  L0 := 22e3;
  c_f := 2e8;
  tau_p := 5.9e-6;
  tau_h := 20e-6;
  tau_t := 10e-6;
  tau_d := 100e-6;
  tau_o := 10e-6;
  tau_a := 10e-6;
  T_ch := 10e-3
|}%R.

(** ** Link entanglement rate, over exact reals

    The locals of [link_entanglement_rate] are named definitions, so that
    the statements below can speak about them.  The arithmetic is that of
    the reals; [Module Binary64] below has the interpreter's. *)

Section LinkRate.
Variable self : QuantumNetwork.
Local Open Scope R_scope.

Definition p_ij (d_ij : R) : R :=
  0.5 * v_o self * (p_ht self * v_h self * v_t self) ^ 2
    * exp ((- d_ij) / L0 self).

Definition tau_ij (d_ij : R) : R :=
  tau_t self + (d_ij / (2 * c_f self)) + tau_o self
    + (d_ij / (2 * c_f self)).

Definition T_ij_s (d_ij : R) : R :=
  tau_p self + Rmax (tau_h self) (tau_ij d_ij).

Definition T_ij_f (d_ij : R) : R :=
  tau_p self + Rmax (Rmax (tau_h self) (tau_ij d_ij)) (tau_d self).

Definition T_ij (d_ij : R) : R :=
  ((1 - p_ij d_ij) * T_ij_f d_ij + p_ij d_ij * T_ij_s d_ij) / p_ij d_ij.

Definition link_entanglement_rate (d_ij : R) : R :=
  if Rlt_dec (T_ch self) (tau_ij d_ij) then 0.0 else 1.0 / T_ij d_ij.

(** The swap step of [end_to_end_rate], from the two sub-path rates on. *)
Definition swap_rate (rate_left rate_right : R) : R :=
  if Req_dec_T rate_left 0 then 0.0
  else if Req_dec_T rate_right 0 then 0.0
  else
    let T_left := 1.0 / rate_left in
    let T_right := 1.0 / rate_right in
    let T_swap := (Rmax T_left T_right + tau_a self) / v_a self in
    let tau_left := T_left in
    let tau_right := T_right in
    let tau_total := Rmax tau_left tau_right + tau_a self in
    if Rlt_dec (T_ch self) tau_total then 0.0 else 1.0 / T_swap.
End LinkRate.

(** The invariant of the parameter bundle (spec, data model): durations,
    lengths and speeds are strictly positive, probabilities and efficiencies
    lie between 0 and 1, the coherence time is non-negative. *)
Record valid_params (self : QuantumNetwork) : Prop := {
  p_ht_range : (0 <= p_ht self <= 1)%R;
  v_h_range : (0 <= v_h self <= 1)%R;
  v_t_range : (0 <= v_t self <= 1)%R;
  v_o_range : (0 <= v_o self <= 1)%R;
  v_a_range : (0 <= v_a self <= 1)%R;
  L0_pos : (0 < L0 self)%R;
  c_f_pos : (0 < c_f self)%R;
  tau_p_pos : (0 < tau_p self)%R;
  tau_h_pos : (0 < tau_h self)%R;
  tau_t_pos : (0 < tau_t self)%R;
  tau_d_pos : (0 < tau_d self)%R;
  tau_o_pos : (0 < tau_o self)%R;
  tau_a_pos : (0 < tau_a self)%R;
  T_ch_nonneg : (0 <= T_ch self)%R
}.


(** ** End-to-end rate and path search *)

Section PathSearch.
Context {node : Type} {node_eq_dec : EqDecision node}
  {node_countable : Countable node}.

Implicit Types (path : list node) (nodes : list node).
Implicit Types (distances : gmap node (gmap node R)).

(** [QuantumNetwork.end_to_end_rate].  The subscript [distances[path[0]][path[1]]]
    evaluates [path[0]], then [distances[...]], then [path[1]], then the
    inner lookup. *)
Fixpoint end_to_end_rate (fuel : nat) (self : QuantumNetwork)
    path distances : result R :=
  match fuel with
  | O => Raise RecursionError
  | S fuel =>
    if decide (length path = 1) then            (* if len(path) == 1: *)
      n0 ← index path 0;
      row ← getitem distances n0;
      n1 ← index path 1;
      d ← getitem row n1;
      Ok (link_entanglement_rate self d)
    else
      let k := length path / 2 in               (* k = len(path) // 2 *)
      let left_path := take (k + 1) path in     (* path[:k+1] *)
      let right_path := drop k path in          (* path[k:] *)
      rate_left ← end_to_end_rate fuel self left_path distances;
      rate_right ← end_to_end_rate fuel self right_path distances;
      Ok (swap_rate self rate_left rate_right)
  end.

(** [enumerate_paths].  [visited=None] stands for a fresh empty set;
    [visited.add(src)] acts on the caller's copy, so the set is passed by
    value. *)
Fixpoint enumerate_paths (fuel : nat) (src dst : node) nodes distances
    (visited : option (gset node)) : result (list (list node)) :=
  match fuel with
  | O => Raise RecursionError
  | S fuel =>
    let visited := default ∅ visited in         (* if visited is None: set() *)
    let visited := {[src]} ∪ visited in         (* visited.add(src) *)
    if decide (src = dst) then Ok [[dst]]
    else
      for_loop nodes [] (λ paths neighbor,
        if decide (neighbor ∉ visited) then
          row ← getitem distances src;
          if row !! neighbor is Some _ then     (* .get(neighbor) is not None *)
            subpaths ← enumerate_paths fuel neighbor dst nodes distances
                         (Some visited);        (* visited.copy() *)
            Ok (paths ++ map (cons src) subpaths)
          else Ok paths
        else Ok paths)
  end.

(** [find_optimal_path]: collect the paths of every pair, then keep the
    first path of strictly greatest rate. *)
Definition find_optimal_path (fuel : nat) (network : QuantumNetwork)
    nodes distances : result (option (list node) * R) :=
  all_paths ← for_loop (combinations2 nodes) [] (λ all_paths '(src, dst),
    paths ← enumerate_paths fuel src dst nodes distances None;
    Ok (all_paths ++ paths));
  for_loop all_paths (None, 0.0%R) (λ '(best_path, best_rate) path,
    rate ← end_to_end_rate fuel network path distances;
    if Rlt_dec best_rate rate then Ok (Some path, rate)   (* rate > best_rate *)
    else Ok (best_path, best_rate)).

(** *** Paths of the topology

    [edge a b]: the distance graph has an entry for the pair, that is
    [distances[a].get(b)] is not [None]. *)

Definition edge distances (a b : node) : Prop :=
  ∃ row, distances !! a = Some row ∧ is_Some (row !! b).

Fixpoint chain distances path : Prop :=
  match path with
  | a :: (b :: _) as rest => edge distances a b ∧ chain distances rest
  | _ => True
  end.

(** A simple path from [src] to [dst] that, after [src], stays inside
    [nodes] and outside [visited]. *)
Definition simple_path nodes distances (visited : gset node)
    (src dst : node) path : Prop :=
  ∃ rest, path = src :: rest ∧ last path = Some dst ∧ NoDup path ∧
    Forall (λ x, x ∈ nodes ∧ x ∉ visited) rest ∧ chain distances path.

(** What one iteration of the loop of [enumerate_paths] appends to
    [paths], given the recursive call [rec]. *)
Definition neighbor_paths (rec : node → result (list (list node)))
    (src : node) distances (visited : gset node) (neighbor : node)
    : result (list (list node)) :=
  if decide (neighbor ∉ visited) then
    row ← getitem distances src;
    if row !! neighbor is Some _ then
      subpaths ← rec neighbor; Ok (map (cons src) subpaths)
    else Ok []
  else Ok [].

End PathSearch.

(** ** The example topology of the [__main__] block *)

Definition example_nodes : list string := ["v1"; "v2"; "v3"; "vj"].

Definition example_distances : gmap string (gmap string R) :=
  {[ "v1" := {[ "v2" := 5e3%R ]};
     "v2" := {[ "v1" := 5e3%R; "v3" := 5e3%R; "vj" := 10e3%R ]};
     "v3" := {[ "v2" := 5e3%R; "vj" := 5e3%R ]};
     "vj" := {[ "v2" := 10e3%R; "v3" := 5e3%R ]} ]}.

(** Two isolated nodes: a graph with zero edges. *)
Definition isolated_nodes : list string := ["v1"; "v2"].

Definition isolated_distances : gmap string (gmap string R) :=
  {[ "v1" := ∅; "v2" := ∅ ]}.

(** A topology whose distance graph mentions a node, ["x"], that is not in
    the node list and has no row of its own. *)
Definition stray_nodes : list string := ["v1"; "v2"].

Definition stray_distances : gmap string (gmap string R) :=
  {[ "v1" := {[ "v2" := 5e3%R; "x" := 1e3%R ]};
     "v2" := {[ "v1" := 5e3%R; "x" := 1e3%R ]} ]}.

(** ** Link entanglement rate, in binary64

    [link_entanglement_rate] as CPython and NumPy compute it.  The
    parameters and the distance are Python floats, as [__init__] and the
    example topology have them; [np.exp] returns a [numpy.float64], and so
    does every operation that has one as an operand.

    - On Python floats [x / y] raises [ZeroDivisionError] when [y == 0], and
      [x ** 2] raises [OverflowError] when the square of a finite [x]
      overflows; the square itself is taken to be the correctly rounded
      product.  The other operators never raise.
    - On [numpy.float64] every operator follows IEEE-754 and none raises: a
      division by zero yields an infinity or NaN (and a [RuntimeWarning],
      which is not modelled).
    - [np.exp] is not defined here: it is the parameter [np_exp]. *)

Module Binary64.
Import Floats.
Local Open Scope float_scope.

Record QuantumNetwork : Type := {
  p_ht : float;
  v_h : float;
  v_t : float;
  v_o : float;
  v_a : float;
  L0 : float;
  c_f : float;
  tau_p : float;
  tau_h : float;
  tau_t : float;
  tau_d : float;
  tau_o : float;
  tau_a : float;
  T_ch : float
}.

(** [QuantumNetwork.__init__]. *)
Definition init : QuantumNetwork := {|
  p_ht := 0.53;
  v_h := 0.8;
  v_t := 0.8;
  v_o := 0.39;
  v_a := 0.39;
  L0 := 22e3;
  c_f := 2e8;
  tau_p := 5.9e-6;
  tau_h := 20e-6;
  tau_t := 10e-6;
  tau_d := 100e-6;
  tau_o := 10e-6;
  tau_a := 10e-6;
  T_ch := 10e-3
|}.

(** [x / y] on Python floats. *)
Definition py_div (x y : float) : result float :=
  if y =? 0 then Raise ZeroDivisionError else Ok (x / y).

(** [x ** 2] on a Python float. *)
Definition py_square (x : float) : result float :=
  let y := x * x in
  if is_finite x && is_infinity y then Raise OverflowError else Ok y.

(** [max(a, b)]: the first argument, unless the second is greater. *)
Definition py_max (a b : float) : float := if a <? b then b else a.

Section LinkRate.
Variable np_exp : float → float.
Variable self : QuantumNetwork.

(** Line 31.  [0.5 * v_o] is evaluated first, then the power, then the
    argument of [np.exp]. *)
Definition p_ij (d_ij : float) : result float :=
  sq ← py_square (p_ht self * v_h self * v_t self);
  x ← py_div (- d_ij) (L0 self);
  Ok (0.5 * v_o self * sq * np_exp x).

(** Line 34. *)
Definition tau_ij (d_ij : float) : result float :=
  h1 ← py_div d_ij (2 * c_f self);
  h2 ← py_div d_ij (2 * c_f self);
  Ok (tau_t self + h1 + tau_o self + h2).

(** Lines 35 and 38, from the value of [tau_ij] on. *)
Definition T_ij_s (tau_ij : float) : float :=
  tau_p self + py_max (tau_h self) tau_ij.

Definition T_ij_f (tau_ij : float) : float :=
  tau_p self + py_max (py_max (tau_h self) tau_ij) (tau_d self).

(** Line 41, from the values of [p_ij] and [tau_ij] on: [numpy.float64]
    arithmetic, the division included. *)
Definition T_ij (p_ij tau_ij : float) : float :=
  ((1 - p_ij) * T_ij_f tau_ij + p_ij * T_ij_s tau_ij) / p_ij.

Definition link_entanglement_rate (d_ij : float) : result float :=
  p_ij ← p_ij d_ij;
  tau_ij ← tau_ij d_ij;
  if T_ch self <? tau_ij then Ok 0.0 else Ok (1.0 / T_ij p_ij tau_ij).
End LinkRate.

(** [np.exp] at the arguments that the concrete inputs below pass to it,
    each value the correctly rounded exponential:
    [-0.0] (distance 0), [-5e3/22e3], [-19997.76714509068/22e3],
    [-19997.767145090682/22e3] and [-1.6e7/22e3]. *)
Definition np_exp_samples (x : float) : float :=
  if x =? 0 then 1
  else if x =? -0.22727272727272727 then 0.7967034698934616
  else if x =? -0.9089894156859399 then 0.40293121431483303
  else if x =? -0.90898941568594 then 0.402931214314833
  else if x =? -727.2727272727273 then 1.4108073e-316
  else nan.

(** The default parameters with a coherence time of 0.1 s. *)
Definition long_memory : QuantumNetwork := {|
  p_ht := 0.53;
  v_h := 0.8;
  v_t := 0.8;
  v_o := 0.39;
  v_a := 0.39;
  L0 := 22e3;
  c_f := 2e8;
  tau_p := 5.9e-6;
  tau_h := 20e-6;
  tau_t := 10e-6;
  tau_d := 100e-6;
  tau_o := 10e-6;
  tau_a := 10e-6;
  T_ch := 0.1
|}.


(** The default parameters with an optical BSM efficiency of 1e-312. *)
Definition faint_optical_bsm : QuantumNetwork := {|
  p_ht := 0.53;
  v_h := 0.8;
  v_t := 0.8;
  v_o := 1e-312;
  v_a := 0.39;
  L0 := 22e3;
  c_f := 2e8;
  tau_p := 5.9e-6;
  tau_h := 20e-6;
  tau_t := 10e-6;
  tau_d := 100e-6;
  tau_o := 10e-6;
  tau_a := 10e-6;
  T_ch := 10e-3
|}.
End Binary64.

(** * Properties *)

(** ** The result monad *)

Lemma result_bind_Ok {A B} (f : A → result B) (a : A) : Ok a ≫= f = f a.
Proof. reflexivity. Qed.

Lemma result_bind_Raise {A B} (f : A → result B) (e : exn) :
  Raise e ≫= f = Raise e.
Proof. reflexivity. Qed.

(** ** Path search *)

Section PathSearchFacts.
Context {node : Type} {node_eq_dec : EqDecision node}
  {node_countable : Countable node}.

Implicit Types (path : list node) (nodes : list node).
Implicit Types (distances : gmap node (gmap node R)).

(** *** The base-case test of [end_to_end_rate] *)

Lemma length_left_path path :
  length path ≠ 1 → length (take (length path / 2 + 1) path) ≠ 1.
Proof.
  intros Hlen. rewrite length_take.
  destruct (decide (length path = 0)) as [->|Hne]; [done|].
  assert (1 ≤ length path / 2) by (apply Nat.div_le_lower_bound; lia).
  lia.
Qed.

Lemma end_to_end_rate_diverges fuel self path distances :
  length path ≠ 1 →
  end_to_end_rate fuel self path distances = Raise RecursionError.
Proof.
  revert path. induction fuel as [|fuel IH]; intros path Hlen; [done|].
  cbn [end_to_end_rate]. destruct (decide (length path = 1)) as [|_]; [done|].
  by rewrite (IH _ (length_left_path _ Hlen)).
Qed.

(** *** Loops *)

Lemma for_loop_ext {A B} (l : list A) (acc : B) (f g : B → A → result B) :
  (∀ acc x, x ∈ l → f acc x = g acc x) →
  for_loop l acc f = for_loop l acc g.
Proof.
  revert acc. induction l as [|x l IH]; intros acc Hfg; [done|].
  cbn [for_loop]. rewrite Hfg by left.
  destruct (g acc x) as [acc'|e]; [|done]. simpl.
  apply IH. intros. apply Hfg. by right.
Qed.

Lemma for_loop_extend {A B} (g : A → result (list B)) l acc r :
  for_loop l acc (λ acc x, c ← g x; Ok (acc ++ c)) = Ok r ↔
  ∃ cs, Forall2 (λ x c, g x = Ok c) l cs ∧ r = acc ++ concat cs.
Proof.
  revert acc. induction l as [|x l IH]; intros acc; cbn [for_loop].
  - split.
    + intros [= <-]. exists []. by rewrite app_nil_r.
    + intros (cs & Hcs & ->). apply Forall2_nil_inv_l in Hcs as ->.
      by rewrite app_nil_r.
  - destruct (g x) as [c|e] eqn:Hgx; simpl.
    + rewrite IH. split.
      * intros (cs & Hcs & ->). exists (c :: cs).
        split; [by constructor|]. simpl. by rewrite app_assoc.
      * intros (cs & Hcs & ->).
        apply Forall2_cons_inv_l in Hcs as (c' & cs' & Hc' & Hcs' & ->).
        rewrite Hgx in Hc'. injection Hc' as <-.
        exists cs'. split; [done|]. simpl. by rewrite app_assoc.
    + split; [done|]. intros (cs & Hcs & _).
      apply Forall2_cons_inv_l in Hcs as (c' & cs' & Hc' & _).
      by rewrite Hgx in Hc'.
Qed.

Lemma enumerate_paths_S fuel src dst nodes distances visited :
  enumerate_paths (S fuel) src dst nodes distances visited =
  let V := {[src]} ∪ default ∅ visited in
  if decide (src = dst) then Ok [[dst]]
  else for_loop nodes [] (λ paths neighbor,
         c ← neighbor_paths
               (λ n, enumerate_paths fuel n dst nodes distances (Some V))
               src distances V neighbor;
         Ok (paths ++ c)).
Proof.
  cbn [enumerate_paths]. cbv zeta. case_decide; [done|].
  apply for_loop_ext. intros paths neighbor _. unfold neighbor_paths.
  case_decide; simpl; [|by rewrite app_nil_r].
  destruct (getitem distances src) as [row|e]; simpl; [|done].
  destruct (row !! neighbor); simpl; [|by rewrite app_nil_r].
  by destruct (enumerate_paths _ _ _ _ _ _).
Qed.

Lemma elem_of_concat_Forall2 {A B} (g : A → result (list B)) l cs p :
  Forall2 (λ x c, g x = Ok c) l cs →
  p ∈ concat cs ↔ ∃ x c, x ∈ l ∧ g x = Ok c ∧ p ∈ c.
Proof.
  induction 1 as [|x c l cs Hg _ IH]; simpl.
  - split; [by intros ?%elem_of_nil|]. by intros (? & ? & ?%elem_of_nil & _).
  - rewrite elem_of_app, IH. split.
    + intros [Hp|(x' & c' & ? & ? & ?)].
      * exists x, c. split; [left|done].
      * exists x', c'. split; [by right|done].
    + intros (x' & c' & [->|?]%elem_of_cons & Hg' & Hp).
      * left. congruence.
      * right. by exists x', c'.
Qed.

Lemma NoDup_concat_Forall2 {A B} (g : A → result (list B))
    (tag : B → option A) l cs :
  Forall2 (λ x c, g x = Ok c) l cs →
  NoDup l →
  (∀ x c, x ∈ l → g x = Ok c → NoDup c ∧ ∀ p, p ∈ c → tag p = Some x) →
  NoDup (concat cs).
Proof.
  induction 1 as [|x c l cs Hg Hcs IH]; simpl; [constructor|].
  intros [Hx Hl]%NoDup_cons Hc.
  destruct (Hc x c ltac:(left) Hg) as [Hnd Htag].
  apply NoDup_app. split_and!; [done| |].
  - intros p Hp Hp'.
    apply (elem_of_concat_Forall2 g l) in Hp' as (x' & c' & Hx' & Hg' & Hp');
      [|done].
    destruct (Hc x' c' ltac:(by right) Hg') as [_ Htag'].
    specialize (Htag _ Hp). specialize (Htag' _ Hp'). congruence.
  - apply IH; [done|]. intros x' c' Hx'. apply Hc. by right.
Qed.

(** *** Simple paths, one step at a time *)

Lemma simple_path_refl nodes distances V src p :
  simple_path nodes distances V src src p ↔ p = [src].
Proof.
  split.
  - intros (rest & -> & Hlast & Hnd & _).
    destruct rest as [|x rest]; [done|].
    apply NoDup_cons in Hnd as [Hsrc _]. destruct Hsrc.
    change (last (x :: rest) = Some src) in Hlast.
    apply last_Some in Hlast as [l' ->]. set_solver.
  - intros ->. exists []. split_and!; try done.
    apply NoDup_singleton.
Qed.

Lemma simple_path_step nodes distances V src dst p :
  src ≠ dst →
  simple_path nodes distances V src dst p ↔
  ∃ nb q, p = src :: q ∧ nb ∈ nodes ∧ (nb ∉ {[src]} ∪ V) ∧
    edge distances src nb ∧
    simple_path nodes distances ({[src]} ∪ V) nb dst q.
Proof.
  intros Hne. split.
  - intros (rest & -> & Hlast & Hnd & Hall & Hch).
    destruct rest as [|nb rest]; [naive_solver|].
    apply NoDup_cons in Hnd as [Hsrc Hnd].
    apply Forall_cons in Hall as [[Hnb HnbV] Hall].
    destruct Hch as [Hedge Hch].
    exists nb, (nb :: rest). split_and!; try done; [set_solver|].
    exists rest. split_and!; try done.
    apply Forall_forall. intros x Hx.
    rewrite Forall_forall in Hall. destruct (Hall x Hx). set_solver.
  - intros (nb & q & -> & Hnb & HnbV & Hedge & rest & -> & Hlast & Hnd & Hall & Hch).
    exists (nb :: rest). split_and!; try done.
    + apply NoDup_cons. split; [|done].
      rewrite Forall_forall in Hall.
      intros [->|Hin]%elem_of_cons; [set_solver|].
      destruct (Hall _ Hin). set_solver.
    + apply Forall_cons. split; [set_solver|].
      eapply Forall_impl; [exact Hall|]. set_solver.
Qed.

(** *** What [enumerate_paths] returns *)

Lemma neighbor_paths_spec nodes distances rec src dst V nb c :
  (∀ sub, rec nb = Ok sub →
     (∀ q, q ∈ sub ↔ simple_path nodes distances V nb dst q) ∧
     (NoDup nodes → NoDup sub)) →
  neighbor_paths rec src distances V nb = Ok c →
  (∀ p, p ∈ c ↔ ∃ q, p = src :: q ∧ (nb ∉ V) ∧ edge distances src nb ∧
                  simple_path nodes distances V nb dst q) ∧
  (NoDup nodes → NoDup c).
Proof.
  intros Hrec. unfold neighbor_paths, edge, getitem.
  assert (∀ p : list node, p ∈ @nil (list node) ↔ False) as Hnil
    by (intros; apply elem_of_nil).
  case_decide as HV; [|intros [= <-]; split; [naive_solver|intros; apply NoDup_nil_2]].
  destruct (distances !! src) as [row|]; simpl; [|done].
  destruct (row !! nb) as [d|] eqn:Hd.
  2:{ intros [= <-]. split; [|intros; apply NoDup_nil_2].
      intros p. rewrite Hnil. split; [done|].
      intros (q & _ & _ & (row' & [= <-] & Hsome) & _).
      rewrite Hd in Hsome. by destruct Hsome. }
  destruct (rec nb) as [sub|] eqn:Hsub; simpl; [|done].
  intros [= <-]. destruct (Hrec sub eq_refl) as [Hiff Hnd].
  change (map (cons src) sub) with (cons src <$> sub). split.
  - intros p. rewrite list_elem_of_fmap. split.
    + intros (q & -> & Hq). apply Hiff in Hq. exists q. split_and!; eauto.
    + intros (q & -> & _ & _ & Hq). apply Hiff in Hq. eauto.
  - intros Hnodes. apply (NoDup_fmap_2 _). auto.
Qed.

Lemma enumerate_paths_spec nodes distances fuel src dst visited paths :
  enumerate_paths fuel src dst nodes distances visited = Ok paths →
  (∀ p, p ∈ paths ↔
        simple_path nodes distances (default ∅ visited) src dst p) ∧
  (NoDup nodes → NoDup paths).
Proof.
  revert src visited paths.
  induction fuel as [|fuel IH]; intros src visited paths; [done|].
  rewrite enumerate_paths_S. cbv zeta.
  set (V := {[src]} ∪ default ∅ visited).
  case_decide as Hsd.
  - subst dst. intros [= <-]. split; [|intros _; apply NoDup_singleton].
    intros p. by rewrite simple_path_refl, list_elem_of_singleton.
  - intros (cs & Hcs & ->)%for_loop_extend. simpl.
    assert (∀ nb c,
      neighbor_paths
        (λ n, enumerate_paths fuel n dst nodes distances (Some V))
        src distances V nb = Ok c →
      (∀ p, p ∈ c ↔ ∃ q, p = src :: q ∧ (nb ∉ V) ∧ edge distances src nb ∧
                      simple_path nodes distances V nb dst q) ∧
      (NoDup nodes → NoDup c)) as Hnb.
    { intros nb c. apply neighbor_paths_spec. intros sub. apply IH. }
    split.
    + intros p. rewrite (elem_of_concat_Forall2 _ _ _ _ Hcs).
      rewrite simple_path_step by done. fold V. split.
      * intros (nb & c & Hin & Hc & Hp).
        apply Hnb in Hc as [Hc _]. apply Hc in Hp as (q & -> & ? & ? & ?).
        by exists nb, q.
      * intros (nb & q & -> & Hin & HnbV & Hedge & Hq).
        assert (is_Some' : ∃ c, neighbor_paths
          (λ n, enumerate_paths fuel n dst nodes distances (Some V))
          src distances V nb = Ok c).
        { apply list_elem_of_lookup in Hin as [i Hi].
          destruct (Forall2_lookup_l _ _ _ _ _ Hcs Hi) as (c & _ & Hc). eauto. }
        destruct is_Some' as [c Hc]. exists nb, c. split_and!; try done.
        apply Hnb in Hc as [Hc _]. apply Hc. by exists q.
    + intros Hnodes.
      apply (NoDup_concat_Forall2 _ (λ p, p !! 1) _ _ Hcs Hnodes).
      intros nb c _ Hc. apply Hnb in Hc as [Hc Hnd]. split; [auto|].
      intros p (q & -> & _ & _ & rest & -> & _)%Hc. done.
Qed.

(** The trivial path, [src == dst]. *)
Lemma enumerate_paths_same fuel src nodes distances visited :
  enumerate_paths (S fuel) src src nodes distances visited = Ok [[src]].
Proof. rewrite enumerate_paths_S. cbv zeta. by rewrite decide_True. Qed.

(** *** Enough frames: [enumerate_paths] returns *)

Lemma length_filter_visit nodes (V : gset node) nb :
  nb ∈ nodes → nb ∉ V →
  length (filter (λ x, x ∉ {[nb]} ∪ V) nodes)
    < length (filter (λ x, x ∉ V) nodes).
Proof.
  intros Hin HV.
  assert (filter (λ x, x ∉ {[nb]} ∪ V) nodes
          = filter (λ x, x ≠ nb) (filter (λ x, x ∉ V) nodes)) as ->.
  { rewrite list_filter_filter. apply list_filter_iff. set_solver. }
  apply (length_filter_lt _ _ nb); [|naive_solver].
  by apply list_elem_of_filter.
Qed.

Lemma Forall2_of_total {A B} (g : A → result B) l :
  (∀ x, x ∈ l → ∃ c, g x = Ok c) →
  ∃ cs, Forall2 (λ x c, g x = Ok c) l cs.
Proof.
  induction l as [|x l IH]; intros Hl; [by exists []|].
  destruct (Hl x ltac:(left)) as [c Hc].
  destruct IH as [cs Hcs]; [intros; apply Hl; by right|].
  exists (c :: cs). by constructor.
Qed.

Lemma enumerate_paths_returns nodes distances fuel src dst visited :
  (∀ n, n ∈ src :: nodes → is_Some (distances !! n)) →
  length (filter (λ x, x ∉ {[src]} ∪ default ∅ visited) nodes) < fuel →
  ∃ paths, enumerate_paths fuel src dst nodes distances visited = Ok paths.
Proof.
  revert src visited.
  induction fuel as [|fuel IH]; intros src visited Hrows Hfuel; [lia|].
  rewrite enumerate_paths_S. cbv zeta.
  set (V := {[src]} ∪ default ∅ visited) in *.
  case_decide; [eauto|].
  destruct (Forall2_of_total
    (neighbor_paths (λ n, enumerate_paths fuel n dst nodes distances (Some V))
       src distances V) nodes) as [cs Hcs].
  - intros nb Hnb. unfold neighbor_paths, getitem.
    case_decide as HV; [|eauto].
    destruct (Hrows src ltac:(left)) as [row ->]. simpl.
    destruct (row !! nb); [|eauto].
    destruct (IH nb (Some V)) as [sub ->]; [| |simpl; eauto].
    + intros n [->|Hn]%elem_of_cons; apply Hrows; by right.
    + simpl. pose proof (length_filter_visit nodes V nb Hnb HV). lia.
  - eexists. apply for_loop_extend. eauto.
Qed.

(** More frames never change a returned value. *)
Lemma for_loop_mono {A B} (l : list A) (f f' : B → A → result B) acc r :
  (∀ acc x r, f acc x = Ok r → f' acc x = Ok r) →
  for_loop l acc f = Ok r → for_loop l acc f' = Ok r.
Proof.
  intros Hf. revert acc. induction l as [|x l IH]; intros acc; [done|].
  cbn [for_loop]. destruct (f acc x) as [acc'|] eqn:Hx; simpl; [|done].
  rewrite (Hf _ _ _ Hx). simpl. apply IH.
Qed.

Lemma enumerate_paths_mono nodes distances fuel fuel' src dst visited paths :
  enumerate_paths fuel src dst nodes distances visited = Ok paths →
  fuel ≤ fuel' →
  enumerate_paths fuel' src dst nodes distances visited = Ok paths.
Proof.
  revert fuel' src visited paths.
  induction fuel as [|fuel IH]; intros fuel' src visited paths; [done|].
  destruct fuel' as [|fuel']; [lia|]. intros Hret Hle.
  cbn [enumerate_paths] in *. case_decide; [done|].
  revert Hret. apply for_loop_mono. intros acc nb r.
  case_decide; [|done].
  destruct (getitem distances src) as [row|]; simpl; [|done].
  destruct (row !! nb); [|done].
  destruct (enumerate_paths fuel _ _ _ _ _) as [sub|] eqn:Hsub; simpl; [|done].
  rewrite (IH fuel' _ _ _ Hsub) by lia. done.
Qed.

(** *** The search never scores a path *)

Lemma end_to_end_rate_raises fuel self path distances :
  ∃ e, end_to_end_rate fuel self path distances = Raise e.
Proof.
  destruct (decide (length path = 1)) as [Hlen|Hlen].
  - destruct fuel as [|fuel]; [by eexists|].
    cbn [end_to_end_rate]. rewrite decide_True by done.
    destruct path as [|n0 [|n1 path]]; try done. unfold index. simpl.
    destruct (getitem distances n0); simpl; by eexists.
  - eexists. by apply end_to_end_rate_diverges.
Qed.

Lemma find_optimal_path_returns_None fuel network nodes distances best :
  find_optimal_path fuel network nodes distances = Ok best →
  best = (None, 0%R) ∧
  for_loop (combinations2 nodes) [] (λ all_paths '(src, dst),
    paths ← enumerate_paths fuel src dst nodes distances None;
    Ok (all_paths ++ paths)) = Ok [].
Proof.
  unfold find_optimal_path.
  destruct (for_loop (combinations2 nodes) _ _) as [all_paths|]; simpl; [|done].
  destruct all_paths as [|path all_paths]; cbn [for_loop].
  - intros [= <-]. split; [|done]. f_equal. lra.
  - destruct (end_to_end_rate_raises fuel network path distances) as [e ->].
    done.
Qed.

End PathSearchFacts.

(** ** The functions at work on the example topology *)

Example combinations2_example :
  combinations2 example_nodes
  = [("v1", "v2"); ("v1", "v3"); ("v1", "vj");
     ("v2", "v3"); ("v2", "vj"); ("v3", "vj")].
Proof. reflexivity. Qed.

Example enumerate_paths_v1_vj :
  enumerate_paths 4 "v1" "vj" example_nodes example_distances None
  = Ok [["v1"; "v2"; "v3"; "vj"]; ["v1"; "v2"; "vj"]].
Proof. by vm_compute. Qed.

Example enumerate_paths_v1_vj_shallow :
  enumerate_paths 3 "v1" "vj" example_nodes example_distances None
  = Raise RecursionError.
Proof. by vm_compute. Qed.

Example enumerate_paths_v1_v1 :
  enumerate_paths 1 "v1" "v1" example_nodes example_distances None
  = Ok [["v1"]].
Proof. by vm_compute. Qed.

Example enumerate_paths_missing_row :
  enumerate_paths 4 "v1" "v2" ["v1"; "v2"] ∅ None = Raise KeyError.
Proof. by vm_compute. Qed.

Example end_to_end_rate_one_node :
  end_to_end_rate 1000 init ["v1"] example_distances = Raise IndexError.
Proof. by vm_compute. Qed.

Example end_to_end_rate_unknown_node :
  end_to_end_rate 1000 init ["w"] example_distances = Raise KeyError.
Proof. by vm_compute. Qed.

Example end_to_end_rate_two_nodes :
  end_to_end_rate 1000 init ["v1"; "v2"] example_distances
  = Raise RecursionError.
Proof. by vm_compute. Qed.

(** ** Link rate over the reals *)

Lemma init_valid : valid_params init.
Proof. split; simpl; lra. Qed.

Section LinkRateFacts.
Variable self : QuantumNetwork.
Hypothesis Hv : valid_params self.
Local Open Scope R_scope.

Lemma exp_le_1 d : 0 <= d → 0 < exp ((- d) / L0 self) <= 1.
Proof.
  intros Hd. split; [apply exp_pos|].
  destruct Hv. 
  rewrite <- exp_0. 
  destruct (Req_dec_T d 0) as [->|Hne].
  - right. f_equal. field. lra.
  - left. apply exp_increasing. 
    apply Rmult_lt_reg_r with (L0 self); [done|].
    unfold Rdiv. rewrite Rmult_assoc, Rinv_l by lra. lra.
Qed.



Lemma tau_ij_pos d : 0 <= d → 0 < tau_ij self d.
Proof.
  intros Hd. destruct Hv. unfold tau_ij.
  assert (0 <= d / (2 * c_f self)); [|lra].
  apply Rmult_le_pos; [done|]. left. apply Rinv_0_lt_compat. lra.
Qed.










End LinkRateFacts.

(** ** Binary64 comparisons and the quotient by zero *)

Section Binary64Facts.
Import Floats.
Local Open Scope float_scope.

Lemma float_eqb_ltb (x y : float) : (x =? y) = true → (x <? y) = false.
Proof.
  rewrite FloatAxioms.eqb_spec, ltb_spec. unfold SFeqb, SFltb.
  by destruct (SFcompare _ _) as [[]|].
Qed.



End Binary64Facts.

(** * The claims *)

Local Open Scope R_scope.

(** ** C4: the round-trip signal time *)





(** ** C9: the link rate does not grow with the distance *)



Local Close Scope R_scope.

(** ** C5, C6, C9: what [link_entanglement_rate] returns, in binary64 *)

Section Binary64Claims.
Import Floats Binary64.
Local Open Scope float_scope.

(** C5, as stated, fails: with a coherence time of 0.1 s and the other
    parameters at their defaults, at the distance 1.6e7 the success
    probability is positive (3.165296e-318) and the link is not cut off
    ([T_ch >= tau_ij = 0.08002000000000001]), yet the rate is 0.0: line 41
    overflows to infinity and [1.0 / T_ij] is 0.0. *)
Lemma link_rate_zero_without_cutoff :
  (0 <=? 1.6e7) = true
  ∧ p_ij np_exp_samples long_memory 1.6e7 = Ok 3.165296e-318
  ∧ (0 <? 3.165296e-318) = true
  ∧ tau_ij long_memory 1.6e7 = Ok 0.08002000000000001
  ∧ (T_ch long_memory <? 0.08002000000000001) = false
  ∧ T_ij long_memory 3.165296e-318 0.08002000000000001 = infinity
  ∧ link_entanglement_rate np_exp_samples long_memory 1.6e7 = Ok 0.
Proof. by vm_compute. Qed.

(** The same at distance 0, where [np.exp] is called on [-0.0] only, with an
    optical BSM efficiency of 1e-312 and the default coherence time. *)
Example link_rate_zero_without_cutoff_at_zero :
  p_ij np_exp_samples faint_optical_bsm 0 = Ok 5.752832e-314
  ∧ (0 <? 5.752832e-314) = true
  ∧ tau_ij faint_optical_bsm 0 = Ok 2e-05
  ∧ (T_ch faint_optical_bsm <? 2e-05) = false
  ∧ link_entanglement_rate np_exp_samples faint_optical_bsm 0 = Ok 0.
Proof. by vm_compute. Qed.

(** C5, amended: when lines 31 and 34 raise nothing, the rate is 0.0 if
    [T_ch < tau_ij] and otherwise [1/T] with
    [T = ((1-p) T_fail + p T_success) / p]; [T_ch == tau_ij] is not cut off;
    and the rate [1/T] of a link that is not cut off is itself 0.0 when [T]
    is infinite, so a rate of 0.0 does not tell that the link is cut off. *)
Theorem link_rate_cutoff_binary64 (np_exp : float → float)
    (self : QuantumNetwork) (d p tau : float) :
  p_ij np_exp self d = Ok p → tau_ij self d = Ok tau →
  ((T_ch self <? tau) = true →
     link_entanglement_rate np_exp self d = Ok 0)
  ∧ ((T_ch self <? tau) = false →
     link_entanglement_rate np_exp self d
     = Ok (1 / (((1 - p) * T_ij_f self tau + p * T_ij_s self tau) / p)))
  ∧ ((T_ch self =? tau) = true →
     link_entanglement_rate np_exp self d
     = Ok (1 / (((1 - p) * T_ij_f self tau + p * T_ij_s self tau) / p)))
  ∧ ((T_ch self <? tau) = false →
     ((1 - p) * T_ij_f self tau + p * T_ij_s self tau) / p = infinity →
     link_entanglement_rate np_exp self d = Ok 0).
Proof.
  intros Hp Htau. unfold link_entanglement_rate. rewrite Hp, Htau.
  rewrite !result_bind_Ok. unfold T_ij. split_and!.
  - by intros ->.
  - by intros ->.
  - by intros ->%float_eqb_ltb.
  - by intros -> ->.
Qed.

Lemma link_rate_cutoff_binary64_witness :
  (p_ij np_exp_samples init 5e3 = Ok 0.017874874742845163
   ∧ tau_ij init 5e3 = Ok 4.5e-05
   ∧ (T_ch init <? 4.5e-05) = false)
  ∧ link_entanglement_rate np_exp_samples init 5e3 = Ok 170.37176878485562.
Proof.
  assert (p_ij np_exp_samples init 5e3 = Ok 0.017874874742845163) as Hp
    by (by vm_compute).
  assert (tau_ij init 5e3 = Ok 4.5e-05) as Htau by (by vm_compute).
  assert ((T_ch init <? 4.5e-05) = false) as Hge by (by vm_compute).
  split; [by split_and!|].
  rewrite (proj1 (proj2 (link_rate_cutoff_binary64 np_exp_samples init 5e3
                           _ _ Hp Htau)) Hge).
  by vm_compute.
Defined.




End Binary64Claims.

(** ** C1, C2, C3: the recursion of [end_to_end_rate]

    The base case is guarded by [len(path) == 1], not [== 2]: a two-node path
    takes the recursive branch, where [k = 1] and [left_path = path[:2]] is
    the path itself. *)

(** The left half of a two-node path is the whole path. *)
Lemma left_path_of_pair {A} (a b : A) :
  take (length [a; b] / 2 + 1) [a; b] = [a; b].
Proof. reflexivity. Qed.

(** C1 (the code departs from it): on a two-node path [end_to_end_rate]
    does not return the link rate; whatever the recursion limit, it raises
    [RecursionError]. *)
Theorem end_to_end_rate_direct_link_raises {node : Type}
    `{Countable node} (fuel : nat) (self : QuantumNetwork) (a b : node)
    (distances : gmap node (gmap node R)) :
  end_to_end_rate fuel self [a; b] distances = Raise RecursionError.
Proof. by apply end_to_end_rate_diverges. Qed.

(** C2 (the code departs from it): on every path of at least two nodes the
    recursion does not terminate with a rate; the left sub-path of a two-node
    path is not shorter, and the call raises [RecursionError] at every
    recursion limit. *)
Theorem end_to_end_rate_never_terminates {node : Type}
    `{Countable node} (fuel : nat) (self : QuantumNetwork)
    (path : list node) (distances : gmap node (gmap node R)) :
  2 ≤ length path →
  end_to_end_rate fuel self path distances = Raise RecursionError.
Proof. intros Hlen. apply end_to_end_rate_diverges. lia. Qed.

Lemma end_to_end_rate_never_terminates_witness :
  2 ≤ length example_nodes
  ∧ end_to_end_rate 1000 init example_nodes example_distances
    = Raise RecursionError.
Proof.
  assert (2 ≤ length example_nodes) as Hlen by (simpl; lia).
  split; [exact Hlen|].
  exact (end_to_end_rate_never_terminates 1000 init example_nodes
           example_distances Hlen).
Defined.




(** ** C7, C10: what [enumerate_paths] returns *)

(** C7: whenever [enumerate_paths] returns, every returned path is simple
    and each of its consecutive pairs has an entry in the distance graph, the
    simple paths of the topology from [src] to [dst] are all returned, and no
    path is returned twice (the node list having no repetition); and it does
    return when the recursion limit exceeds the number of nodes and every
    node has a row in the distance graph. *)
Theorem enumerate_paths_correct {node : Type} `{Countable node}
    (fuel : nat) (src dst : node) (nodes : list node)
    (distances : gmap node (gmap node R)) :
  NoDup nodes →
  (∀ paths, enumerate_paths fuel src dst nodes distances None = Ok paths →
     (∀ p, p ∈ paths →
        NoDup p ∧ chain distances p ∧ head p = Some src ∧ last p = Some dst)
     ∧ (∀ p, simple_path nodes distances ∅ src dst p → p ∈ paths)
     ∧ NoDup paths)
  ∧ (length nodes < fuel →
     (∀ n, n ∈ src :: nodes → is_Some (distances !! n)) →
     ∃ paths, enumerate_paths fuel src dst nodes distances None = Ok paths).
Proof.
  intros Hnodes. split.
  - intros paths Hret.
    destruct (enumerate_paths_spec _ _ _ _ _ _ _ Hret) as [Hiff Hnd].
    split_and!; [|intros p; apply Hiff|auto].
    intros p (rest & -> & Hlast & Hp & _ & Hch)%Hiff. done.
  - intros Hfuel Hrows. apply enumerate_paths_returns; [done|].
    pose proof (length_filter
      (λ x, x ∉ {[src]} ∪ default ∅ (@None (gset node))) nodes). lia.
Qed.

Lemma example_nodes_NoDup : NoDup example_nodes.
Proof. by apply (bool_decide_unpack _). Qed.

Lemma example_rows (n : string) :
  n ∈ example_nodes → is_Some (example_distances !! n).
Proof.
  unfold example_nodes.
  rewrite !elem_of_cons, elem_of_nil. intros [->|[->|[->|[->|[]]]]];
    vm_compute; eauto.
Qed.

Lemma enumerate_paths_correct_witness :
  NoDup example_nodes
  ∧ ∃ paths,
      enumerate_paths 5 "v1" "vj" example_nodes example_distances None
        = Ok paths
      ∧ NoDup paths
      ∧ ∀ p, p ∈ paths → NoDup p ∧ chain example_distances p.
Proof.
  split; [exact example_nodes_NoDup|].
  destruct (enumerate_paths_correct 5 "v1" "vj" example_nodes
              example_distances example_nodes_NoDup) as [Hsound Htotal].
  destruct Htotal as [paths Hret].
  - simpl. lia.
  - intros n [->|Hn]%elem_of_cons; apply example_rows; [by left|done].
  - exists paths. destruct (Hsound paths Hret) as (Hp & _ & Hnd).
    split_and!; [done|done|]. intros p Hin. destruct (Hp p Hin) as (? & ? & _).
    done.
Defined.

(** C10: when the source belongs to [nodes], every node of every returned
    path belongs to [nodes]; the loop runs over [nodes] only, so the rows of
    the nodes of [nodes] are all that is looked up: a neighbor outside
    [nodes] is never visited and raises nothing. *)
Theorem enumerate_paths_within_nodes {node : Type} `{Countable node}
    (fuel : nat) (src dst : node) (nodes : list node)
    (distances : gmap node (gmap node R)) (visited : option (gset node)) :
  src ∈ nodes →
  (∀ paths p x,
     enumerate_paths fuel src dst nodes distances visited = Ok paths →
     p ∈ paths → x ∈ p → x ∈ nodes)
  ∧ (length nodes < fuel →
     (∀ n, n ∈ nodes → is_Some (distances !! n)) →
     ∃ paths, enumerate_paths fuel src dst nodes distances visited = Ok paths).
Proof.
  intros Hsrc. split.
  - intros paths p x Hret Hp Hx.
    apply (enumerate_paths_spec _ _ _ _ _ _ _ Hret) in Hp
      as (rest & -> & _ & _ & Hrest & _).
    apply elem_of_cons in Hx as [->|Hx]; [done|].
    rewrite Forall_forall in Hrest. by destruct (Hrest x Hx).
  - intros Hfuel Hrows. apply enumerate_paths_returns.
    + intros n [->|Hn]%elem_of_cons; by apply Hrows.
    + pose proof (length_filter (λ x, x ∉ {[src]} ∪ default ∅ visited) nodes).
      lia.
Qed.

Example enumerate_paths_stray :
  enumerate_paths 3 "v1" "v2" stray_nodes stray_distances None
  = Ok [["v1"; "v2"]].
Proof. vm_compute. reflexivity. Qed.

Lemma enumerate_paths_within_nodes_witness :
  "v1" ∈ stray_nodes
  ∧ ∀ paths p x,
      enumerate_paths 3 "v1" "v2" stray_nodes stray_distances None = Ok paths →
      p ∈ paths → x ∈ p → x ∈ stray_nodes.
Proof.
  assert ("v1" ∈ stray_nodes) as Hsrc by (unfold stray_nodes; left).
  split; [exact Hsrc|].
  exact (proj1 (enumerate_paths_within_nodes 3 "v1" "v2" stray_nodes
                  stray_distances None Hsrc)).
Defined.

(** ** C8: the search *)

Lemma elem_of_combinations2 {A} (l : list A) (a b : A) :
  (a, b) ∈ combinations2 l → a ∈ l ∧ b ∈ l ∧ (NoDup l → a ≠ b).
Proof.
  induction l as [|x l IH]; simpl; [by intros ?%elem_of_nil|].
  change (map (pair x) l) with (pair x <$> l).
  rewrite elem_of_app, list_elem_of_fmap.
  intros [(y & [= -> ->] & Hy)|Hin].
  - split_and!; [left|by right|]. intros [Hx _]%NoDup_cons ->. done.
  - destruct (IH Hin) as (Ha & Hb & Hne).
    split_and!; [by right|by right|]. intros [_ Hl]%NoDup_cons. auto.
Qed.

(** The search returns exactly when there is nothing to score. *)
Lemma find_optimal_path_no_candidate {node : Type} `{Countable node}
    (fuel : nat) (network : QuantumNetwork) (nodes : list node)
    (distances : gmap node (gmap node R)) :
  NoDup nodes →
  length nodes < fuel →
  (∀ n, n ∈ nodes → is_Some (distances !! n)) →
  (∀ src dst p, src ∈ nodes → dst ∈ nodes → src ≠ dst →
     ¬ simple_path nodes distances ∅ src dst p) →
  find_optimal_path fuel network nodes distances = Ok (None, 0%R).
Proof.
  intros Hnodes Hfuel Hrows Hnone. unfold find_optimal_path.
  assert (for_loop (combinations2 nodes) []
            (λ all_paths '(src, dst),
               paths ← enumerate_paths fuel src dst nodes distances None;
               Ok (all_paths ++ paths)) = Ok []) as ->.
  { assert (∀ sd, sd ∈ combinations2 nodes →
              enumerate_paths fuel sd.1 sd.2 nodes distances None = Ok [])
      as Hall.
    { intros [src dst] (Hs & Hd & Hne)%elem_of_combinations2. simpl.
      destruct (enumerate_paths_returns nodes distances fuel src dst None)
        as [paths Hret].
      - intros n [->|Hn]%elem_of_cons; by apply Hrows.
      - pose proof (length_filter
          (λ x, x ∉ {[src]} ∪ default ∅ (@None (gset node))) nodes). lia.
      - rewrite Hret. f_equal.
        destruct paths as [|p paths]; [done|].
        destruct (enumerate_paths_spec _ _ _ _ _ _ _ Hret) as [Hiff _].
        destruct (Hnone src dst p Hs Hd (Hne Hnodes)). apply Hiff. left. }
    induction (combinations2 nodes) as [|[src dst] l IH]; [done|].
    cbn [for_loop]. pose proof (Hall (src, dst) ltac:(left)) as Hret.
    simpl in Hret. rewrite Hret. simpl.
    apply IH. intros sd Hsd. apply Hall. by right. }
  simpl. do 2 f_equal. lra.
Qed.

(** A graph with zero edges: every node has an empty row. *)
Lemma find_optimal_path_no_edges {node : Type} `{Countable node}
    (fuel : nat) (network : QuantumNetwork) (nodes : list node)
    (distances : gmap node (gmap node R)) :
  NoDup nodes →
  length nodes < fuel →
  (∀ n, n ∈ nodes → distances !! n = Some ∅) →
  find_optimal_path fuel network nodes distances = Ok (None, 0%R).
Proof.
  intros Hnodes Hfuel Hrows.
  apply find_optimal_path_no_candidate; [done|done| |].
  - intros n Hn. rewrite (Hrows n Hn). eauto.
  - intros src dst p Hsrc _ Hne
      (nb & q & _ & _ & _ & Hedge & _)%simple_path_step; [|done].
    destruct Hedge as (row & Hrow & Hsome).
    rewrite (Hrows src Hsrc) in Hrow. injection Hrow as <-.
    rewrite lookup_empty in Hsome. by destruct Hsome.
Qed.

Example find_optimal_path_isolated :
  find_optimal_path 3 init isolated_nodes isolated_distances = Ok (None, 0%R).
Proof.
  apply find_optimal_path_no_edges.
  - by apply (bool_decide_unpack _).
  - simpl. lia.
  - unfold isolated_nodes, isolated_distances. intros n.
    rewrite !elem_of_cons, elem_of_nil. by intros [->|[->|[]]].
Qed.

(** C8 (the code departs from it): on the example topology, which has
    eleven candidate paths, [find_optimal_path] returns no best candidate:
    scoring the first one, [v1, v2], raises [RecursionError], at every
    recursion limit. *)
Theorem find_optimal_path_example_raises (fuel : nat) :
  find_optimal_path fuel init example_nodes example_distances
  = Raise RecursionError.
Proof.
  destruct fuel as [|[|[|[|fuel]]]]; [by vm_compute..|].
  unfold find_optimal_path.
  assert (for_loop (combinations2 example_nodes) []
            (λ all_paths '(src, dst),
               paths ← enumerate_paths (S (S (S (S fuel)))) src dst
                         example_nodes example_distances None;
               Ok (all_paths ++ paths))
          = Ok [["v1"; "v2"]; ["v1"; "v2"; "v3"]; ["v1"; "v2"; "vj"; "v3"];
                ["v1"; "v2"; "v3"; "vj"]; ["v1"; "v2"; "vj"]; ["v2"; "v3"];
                ["v2"; "vj"; "v3"]; ["v2"; "v3"; "vj"]; ["v2"; "vj"];
                ["v3"; "v2"; "vj"]; ["v3"; "vj"]]) as ->.
  { eapply (for_loop_mono _ (λ all_paths '(src, dst),
               paths ← enumerate_paths 4 src dst
                         example_nodes example_distances None;
               Ok (all_paths ++ paths))); [|vm_compute; reflexivity].
    intros acc [src dst] r.
    destruct (enumerate_paths 4 src dst _ _ _) as [paths|] eqn:Hret; [|done].
    rewrite (enumerate_paths_mono _ _ _ (S (S (S (S fuel)))) _ _ _ _ Hret)
      by lia.
    done. }
  rewrite result_bind_Ok. cbn [for_loop].
  rewrite end_to_end_rate_diverges by done. reflexivity.
Qed.

(** * Further properties of the code *)

(** ** The success probability of [link_entanglement_rate] *)

Local Open Scope R_scope.

(** X1: the success probability of a link lies between 0 and half of the
    optical BSM efficiency, for valid parameters and a non-negative
    distance. *)
Theorem p_ij_range (self : QuantumNetwork) (d : R) :
  valid_params self → 0 <= d →
  0 <= p_ij self d <= 0.5 * v_o self.
Proof.
  intros Hv Hd. unfold p_ij. destruct (exp_le_1 self Hv d Hd) as [He1 He2].
  set (e := exp _) in *. destruct Hv.
  set (x := p_ht self * v_h self * v_t self).
  assert (0 <= p_ht self * v_h self <= 1) as Hab by nra.
  assert (0 <= x <= 1) as Hx by (unfold x; nra).
  assert (0 <= x ^ 2 <= 1) as Hx2 by (simpl; nra).
  set (y := x ^ 2) in *.
  assert (0 <= v_o self * y <= v_o self) as Hvy by nra.
  assert (0 <= v_o self * y * e <= v_o self * y) as Hvye by nra.
  nra.
Qed.

Lemma p_ij_range_witness :
  (valid_params init ∧ 0 <= 5e3) ∧ 0 <= p_ij init 5e3 <= 0.5 * v_o init.
Proof.
  assert (0 <= 5e3) as Hd by lra.
  split; [split; [exact init_valid|exact Hd]|].
  exact (p_ij_range init 5e3 init_valid Hd).
Defined.

(** ** The swap step of [end_to_end_rate] *)

(** X6: the swap step does not depend on the order of its two halves. *)
Theorem swap_rate_comm (self : QuantumNetwork) (rate_left rate_right : R) :
  swap_rate self rate_left rate_right = swap_rate self rate_right rate_left.
Proof.
  unfold swap_rate. cbv zeta.
  rewrite (Rmax_comm (1.0 / rate_left) (1.0 / rate_right)).
  destruct (Req_dec_T rate_left 0), (Req_dec_T rate_right 0); done.
Qed.

Local Close Scope R_scope.

(** ** Path search: exceptions and edge cases *)

Section SearchFacts.
Context {node : Type} {node_eq_dec : EqDecision node}
  {node_countable : Countable node}.

Implicit Types (path : list node) (nodes : list node).
Implicit Types (distances : gmap node (gmap node R)).

(** *** Helpers *)

Lemma neighbor_paths_visited (rec : node → result (list (list node)))
    src distances (V : gset node) x :
  x ∈ V → neighbor_paths rec src distances V x = Ok [].
Proof. intros Hx. unfold neighbor_paths. by rewrite decide_False by auto. Qed.

Lemma neighbor_paths_KeyError (rec : node → result (list (list node)))
    src distances (V : gset node) x :
  x ∉ V → distances !! src = None →
  neighbor_paths rec src distances V x = Raise KeyError.
Proof.
  intros Hx Hrow. unfold neighbor_paths, getitem.
  rewrite decide_True by done. by rewrite Hrow.
Qed.

Lemma for_loop_neighbors_visited (rec : node → result (list (list node)))
    src distances (V : gset node) l acc :
  (∀ n, n ∈ l → n ∈ V) →
  for_loop l acc (λ paths neighbor,
    c ← neighbor_paths rec src distances V neighbor; Ok (paths ++ c))
  = Ok acc.
Proof.
  induction l as [|x l IH]; intros Hl; [done|].
  cbn [for_loop]. rewrite neighbor_paths_visited by (apply Hl; left).
  rewrite !result_bind_Ok, app_nil_r. apply IH. intros n Hn. apply Hl. by right.
Qed.

Lemma for_loop_neighbors_KeyError (rec : node → result (list (list node)))
    src distances (V : gset node) l acc :
  distances !! src = None →
  (∃ n, n ∈ l ∧ n ∉ V) →
  for_loop l acc (λ paths neighbor,
    c ← neighbor_paths rec src distances V neighbor; Ok (paths ++ c))
  = Raise KeyError.
Proof.
  intros Hrow. induction l as [|x l IH]; intros (n & Hn & HnV).
  { by apply elem_of_nil in Hn. }
  cbn [for_loop]. destruct (decide (x ∈ V)) as [Hx|Hx].
  - rewrite neighbor_paths_visited by done.
    rewrite !result_bind_Ok, app_nil_r. apply IH.
    apply elem_of_cons in Hn as [->|Hn]; [done|]. eauto.
  - by rewrite neighbor_paths_KeyError.
Qed.

Lemma chain_tail distances a path :
  chain distances (a :: path) → chain distances path.
Proof. destruct path; [done|]. by intros [_ ?]. Qed.

Lemma chain_snoc distances path x :
  chain distances (path ++ [x])
  ↔ chain distances path ∧ (∀ y, last path = Some y → edge distances y x).
Proof.
  induction path as [|a [|b path] IH].
  - simpl. naive_solver.
  - simpl. naive_solver.
  - change (edge distances a b ∧ chain distances ((b :: path) ++ [x])
            ↔ (edge distances a b ∧ chain distances (b :: path))
              ∧ (∀ y, last (b :: path) = Some y → edge distances y x)).
    rewrite IH. naive_solver.
Qed.

Lemma chain_reverse distances path :
  (∀ a b, edge distances a b → edge distances b a) →
  chain distances path → chain distances (reverse path).
Proof.
  intros Hsym. induction path as [|a path IH]; [done|].
  intros Hch. rewrite reverse_cons. apply chain_snoc. split.
  - apply IH. by eapply chain_tail.
  - intros y. rewrite last_reverse. destruct path as [|b path]; [done|].
    intros [= <-]. apply Hsym. by destruct Hch.
Qed.

Lemma simple_path_reverse nodes distances src dst path :
  (∀ a b, edge distances a b → edge distances b a) →
  src ∈ nodes →
  simple_path nodes distances ∅ src dst path →
  simple_path nodes distances ∅ dst src (reverse path).
Proof.
  intros Hsym Hsrc (rest & -> & Hlast & Hnd & Hrest & Hch).
  assert (head (reverse (src :: rest)) = Some dst) as Hhead
    by (by rewrite head_reverse).
  destruct (reverse (src :: rest)) as [|d rest'] eqn:Hrev; [done|].
  injection Hhead as ->. exists rest'. split_and!.
  - done.
  - by rewrite <- Hrev, last_reverse.
  - rewrite <- Hrev. by rewrite reverse_Permutation.
  - apply Forall_forall. intros x Hx. split; [|set_solver].
    assert (x ∈ src :: rest) as Hin.
    { apply elem_of_reverse. rewrite Hrev. by right. }
    apply elem_of_cons in Hin as [->|Hin]; [done|].
    rewrite Forall_forall in Hrest. by destruct (Hrest x Hin).
  - rewrite <- Hrev. by apply chain_reverse.
Qed.

Lemma simple_path_nodes_subseteq nodes nodes' distances V src dst path :
  (∀ x, x ∈ nodes → x ∈ nodes') →
  simple_path nodes distances V src dst path →
  simple_path nodes' distances V src dst path.
Proof.
  intros Hsub (rest & -> & Hlast & Hnd & Hrest & Hch).
  exists rest. split_and!; try done.
  eapply Forall_impl; [exact Hrest|]. naive_solver.
Qed.

Lemma collect_paths_nil (fuel : nat) nodes distances
    (pairs : list (node * node)) :
  for_loop pairs [] (λ all_paths '(src, dst),
    paths ← enumerate_paths fuel src dst nodes distances None;
    Ok (all_paths ++ paths)) = Ok []
  ↔ ∀ src dst, (src, dst) ∈ pairs →
      enumerate_paths fuel src dst nodes distances None = Ok [].
Proof.
  rewrite (for_loop_ext pairs [] _ (λ all_paths sd,
    c ← enumerate_paths fuel sd.1 sd.2 nodes distances None;
    Ok (all_paths ++ c))) by (by intros ? [??] _).
  rewrite for_loop_extend. split.
  - intros (cs & Hcs & Hnil) src dst Hin. simpl in Hnil. symmetry in Hnil.
    apply list_elem_of_lookup in Hin as [i Hi].
    destruct (Forall2_lookup_l _ _ _ _ _ Hcs Hi) as (c & Hc & Hret).
    simpl in Hret. rewrite Hret. f_equal.
    destruct c as [|p c]; [done|].
    assert (p ∈ concat cs) as Hp.
    { apply list_elem_of_In, in_concat. exists (p :: c). split; [|by left].
      apply list_elem_of_In, list_elem_of_lookup. eauto. }
    rewrite Hnil in Hp. by apply elem_of_nil in Hp.
  - intros Hall. exists (replicate (length pairs) []). split.
    + apply Forall2_replicate_r; [reflexivity|].
      apply Forall_forall. intros [src dst] Hin. simpl. by apply Hall.
    + simpl. clear. induction (length pairs); [done|]. by simpl.
Qed.

Lemma combinations2_repeated (l : list node) :
  ¬ NoDup l → ∃ a, (a, a) ∈ combinations2 l.
Proof.
  induction l as [|x l IH]; intros Hnd; [destruct Hnd; constructor|].
  simpl. destruct (decide (x ∈ l)) as [Hx|Hx].
  - exists x. apply elem_of_app. left.
    change (map (pair x) l) with (pair x <$> l). by apply list_elem_of_fmap_2.
  - destruct IH as [a Ha].
    + intros Hl. apply Hnd. by constructor.
    + exists a. apply elem_of_app. by right.
Qed.

(** *** [end_to_end_rate] *)

(** X8: with at least one frame, [end_to_end_rate] raises on every path: on
    a one-node path [IndexError], or [KeyError] when the node has no row in
    the distance graph; on every other path, the empty one included,
    [RecursionError]. *)
Theorem end_to_end_rate_exception (fuel : nat) (self : QuantumNetwork)
    path distances :
  end_to_end_rate (S fuel) self path distances
  = Raise match path with
          | [n] => if distances !! n is Some _ then IndexError else KeyError
          | _ => RecursionError
          end.
Proof.
  destruct path as [|n [|m path]].
  - by apply end_to_end_rate_diverges.
  - cbn [end_to_end_rate]. rewrite decide_True by done.
    unfold index, getitem. simpl. by destruct (distances !! n).
  - apply end_to_end_rate_diverges. simpl. lia.
Qed.

(** *** [enumerate_paths] *)

(** X9: a source without a row in the distance graph raises [KeyError] as
    soon as [nodes] holds a node other than the source that is not visited
    (and the source is not the destination). *)
Theorem enumerate_paths_raises_KeyError (fuel : nat) (src dst : node)
    nodes distances (visited : option (gset node)) :
  src ≠ dst → distances !! src = None →
  (∃ n, n ∈ nodes ∧ n ≠ src ∧ n ∉ default ∅ visited) →
  enumerate_paths (S fuel) src dst nodes distances visited = Raise KeyError.
Proof.
  intros Hne Hrow (n & Hn & Hsrc & HV).
  rewrite enumerate_paths_S. cbv zeta. rewrite decide_False by done.
  apply for_loop_neighbors_KeyError; [done|]. exists n. set_solver.
Qed.

(** X10: when every node of [nodes] is the source or visited (an empty node
    list, for one), the call returns the empty list and looks nothing up in
    the distance graph. *)
Theorem enumerate_paths_all_visited (fuel : nat) (src dst : node)
    nodes distances (visited : option (gset node)) :
  src ≠ dst →
  (∀ n, n ∈ nodes → n = src ∨ n ∈ default ∅ visited) →
  enumerate_paths (S fuel) src dst nodes distances visited = Ok [].
Proof.
  intros Hne Hall.
  rewrite enumerate_paths_S. cbv zeta. rewrite decide_False by done.
  apply for_loop_neighbors_visited. intros n Hn. destruct (Hall n Hn); set_solver.
Qed.

(** X11: no node of the [visited] set that the caller passes occurs in a
    returned path after its first node. *)
Theorem enumerate_paths_avoids_visited (fuel : nat) (src dst : node)
    nodes distances (V : gset node) paths (p : list node) (x : node) :
  enumerate_paths fuel src dst nodes distances (Some V) = Ok paths →
  p ∈ paths → x ∈ V → x ∉ tail p.
Proof.
  intros Hret Hp Hx.
  apply (enumerate_paths_spec _ _ _ _ _ _ _ Hret) in Hp
    as (rest & -> & _ & _ & Hrest & _).
  simpl. intros Hin. rewrite Forall_forall in Hrest.
  by destruct (Hrest x Hin).
Qed.

(** X12: a returned path has at least one node and at most one more than
    [nodes] has; at least two when the source is not the destination; and
    at most as many as [nodes] when the source belongs to [nodes]. *)
Theorem enumerate_paths_length (fuel : nat) (src dst : node)
    nodes distances (visited : option (gset node)) paths (p : list node) :
  enumerate_paths fuel src dst nodes distances visited = Ok paths →
  p ∈ paths →
  1 ≤ length p ≤ S (length nodes)
  ∧ (src ≠ dst → 2 ≤ length p)
  ∧ (src ∈ nodes → length p ≤ length nodes).
Proof.
  intros Hret Hp.
  apply (enumerate_paths_spec _ _ _ _ _ _ _ Hret) in Hp
    as (rest & -> & Hlast & Hnd & Hrest & _).
  rewrite Forall_forall in Hrest.
  split_and!.
  - simpl. lia.
  - simpl. apply NoDup_cons in Hnd as [_ Hnd].
    assert (rest ⊆+ nodes) as Hsub.
    { apply NoDup_submseteq; [done|]. intros x Hx. by destruct (Hrest x Hx). }
    apply submseteq_length in Hsub. lia.
  - intros Hne. destruct rest; [|simpl; lia]. naive_solver.
  - intros Hsrc.
    assert (src :: rest ⊆+ nodes) as Hsub.
    { apply NoDup_submseteq; [done|].
      intros x [->|Hx]%elem_of_cons; [done|]. by destruct (Hrest x Hx). }
    by apply submseteq_length in Hsub.
Qed.

(** X13: a destination that is neither the source nor in [nodes] is never
    reached: the returned list is empty. *)
Theorem enumerate_paths_unknown_destination (fuel : nat) (src dst : node)
    nodes distances (visited : option (gset node)) paths :
  src ≠ dst → dst ∉ nodes →
  enumerate_paths fuel src dst nodes distances visited = Ok paths →
  paths = [].
Proof.
  intros Hne Hdst Hret. destruct paths as [|p paths]; [done|].
  destruct (enumerate_paths_spec _ _ _ _ _ _ _ Hret) as [Hiff _].
  destruct (proj1 (Hiff p) ltac:(left)) as (rest & -> & Hlast & _ & Hrest & _).
  destruct rest as [|x rest]; [naive_solver|].
  change (last (x :: rest) = Some dst) in Hlast.
  apply last_Some in Hlast as [l' Hl'].
  rewrite Forall_forall in Hrest.
  destruct (Hrest dst) as [Hin _]; [|done].
  rewrite Hl'. set_solver.
Qed.

(** X14: when the distance graph has an entry from the source to the
    destination, a member of [nodes] that is not visited, the two-node path
    is among the returned ones. *)
Theorem enumerate_paths_direct_edge (fuel : nat) (src dst : node)
    nodes distances (visited : option (gset node)) paths :
  src ≠ dst → dst ∈ nodes → dst ∉ default ∅ visited →
  edge distances src dst →
  enumerate_paths fuel src dst nodes distances visited = Ok paths →
  [src; dst] ∈ paths.
Proof.
  intros Hne Hdst HV Hedge Hret.
  apply (enumerate_paths_spec _ _ _ _ _ _ _ Hret).
  exists [dst]. split_and!; try done.
  - apply NoDup_cons. split; [set_solver|apply NoDup_singleton].
  - by apply Forall_singleton.
Qed.

(** X15: on a distance graph stored symmetrically, the paths from [dst] to
    [src] are the reversed paths from [src] to [dst]. *)
Theorem enumerate_paths_reverse (fuel fuel' : nat) (src dst : node)
    nodes distances paths paths' :
  (∀ a b, edge distances a b → edge distances b a) →
  src ∈ nodes → dst ∈ nodes →
  enumerate_paths fuel src dst nodes distances None = Ok paths →
  enumerate_paths fuel' dst src nodes distances None = Ok paths' →
  ∀ p, p ∈ paths ↔ reverse p ∈ paths'.
Proof.
  intros Hsym Hsrc Hdst Hret Hret' p.
  destruct (enumerate_paths_spec _ _ _ _ _ _ _ Hret) as [Hiff _].
  destruct (enumerate_paths_spec _ _ _ _ _ _ _ Hret') as [Hiff' _].
  rewrite Hiff, Hiff'. simpl. split.
  - by apply simple_path_reverse.
  - intros Hp. rewrite <- (reverse_involutive p).
    by apply simple_path_reverse.
Qed.

(** X16: listing the nodes in another order returns the same paths, in
    another order. *)
Theorem enumerate_paths_permutation (fuel fuel' : nat) (src dst : node)
    nodes nodes' distances (visited : option (gset node)) paths paths' :
  NoDup nodes → nodes ≡ₚ nodes' →
  enumerate_paths fuel src dst nodes distances visited = Ok paths →
  enumerate_paths fuel' src dst nodes' distances visited = Ok paths' →
  paths ≡ₚ paths'.
Proof.
  intros Hnd Hperm Hret Hret'.
  destruct (enumerate_paths_spec _ _ _ _ _ _ _ Hret) as [Hiff Hnd1].
  destruct (enumerate_paths_spec _ _ _ _ _ _ _ Hret') as [Hiff' Hnd2].
  apply NoDup_Permutation; [auto|apply Hnd2; by rewrite <- Hperm|].
  intros p. rewrite Hiff, Hiff'.
  split; apply simple_path_nodes_subseteq; intros x; by rewrite Hperm.
Qed.

(** *** [find_optimal_path] *)

(** X17: whatever [find_optimal_path] returns is [(None, 0.0)]: it never
    returns a path. *)
Theorem find_optimal_path_never_a_path (fuel : nat) (network : QuantumNetwork)
    nodes distances (best : option (list node) * R) :
  find_optimal_path fuel network nodes distances = Ok best →
  best = (None, 0%R).
Proof. by intros [? _]%find_optimal_path_returns_None. Qed.

(** X18: with fewer than two nodes there is no pair to search, and the
    result is [(None, 0.0)] whatever the distance graph and the recursion
    limit. *)
Theorem find_optimal_path_few_nodes (fuel : nat) (network : QuantumNetwork)
    nodes distances :
  length nodes ≤ 1 →
  find_optimal_path fuel network nodes distances = Ok (None, 0%R).
Proof.
  intros Hlen. destruct nodes as [|a [|b nodes]]; [| |simpl in Hlen; lia].
  - unfold find_optimal_path. cbn [combinations2 for_loop].
    rewrite result_bind_Ok. cbn [for_loop]. do 2 f_equal. lra.
  - unfold find_optimal_path. cbn [combinations2 map app for_loop].
    rewrite result_bind_Ok. cbn [for_loop]. do 2 f_equal. lra.
Qed.

(** X19: when every node has a row and the recursion limit exceeds the
    number of nodes, [find_optimal_path] returns exactly when no pair of
    [combinations(nodes, 2)] is joined by a simple path. *)
Theorem find_optimal_path_returns_iff (fuel : nat) (network : QuantumNetwork)
    nodes distances :
  length nodes < fuel →
  (∀ n, n ∈ nodes → is_Some (distances !! n)) →
  (∃ best, find_optimal_path fuel network nodes distances = Ok best)
  ↔ ∀ src dst p, (src, dst) ∈ combinations2 nodes →
      ¬ simple_path nodes distances ∅ src dst p.
Proof.
  intros Hfuel Hrows. split.
  - intros [best [_ Hnil]%find_optimal_path_returns_None] src dst p Hin Hp.
    pose proof (proj1 (collect_paths_nil _ _ _ _) Hnil src dst Hin) as Hret.
    apply (enumerate_paths_spec _ _ _ _ _ _ _ Hret) in Hp.
    by apply elem_of_nil in Hp.
  - intros Hnone. exists (None, 0%R). unfold find_optimal_path.
    rewrite (proj2 (collect_paths_nil fuel nodes distances _)).
    + rewrite result_bind_Ok. cbn [for_loop]. do 2 f_equal. lra.
    + intros src dst Hin.
      destruct (elem_of_combinations2 _ _ _ Hin) as (Hs & Hd & _).
      destruct (enumerate_paths_returns nodes distances fuel src dst None)
        as [paths Hret].
      * intros n [->|Hn]%elem_of_cons; by apply Hrows.
      * pose proof (length_filter
          (λ x, x ∉ {[src]} ∪ default ∅ (@None (gset node))) nodes). lia.
      * rewrite Hret. f_equal. destruct paths as [|p paths]; [done|].
        destruct (Hnone src dst p Hin).
        apply (enumerate_paths_spec _ _ _ _ _ _ _ Hret). left.
Qed.

(** X20: on a well-formed topology (no repeated node, a row for every node,
    enough frames) in which some pair is joined by a simple path,
    [find_optimal_path] raises [RecursionError]. *)
Theorem find_optimal_path_connected_raises (fuel : nat)
    (network : QuantumNetwork) nodes distances :
  NoDup nodes → length nodes < fuel →
  (∀ n, n ∈ nodes → is_Some (distances !! n)) →
  (∃ src dst p, (src, dst) ∈ combinations2 nodes
                ∧ simple_path nodes distances ∅ src dst p) →
  find_optimal_path fuel network nodes distances = Raise RecursionError.
Proof.
  intros Hnd Hfuel Hrows (src & dst & p & Hin & Hp).
  unfold find_optimal_path.
  set (g := λ sd : node * node,
         enumerate_paths fuel sd.1 sd.2 nodes distances None).
  rewrite (for_loop_ext (combinations2 nodes) [] _ (λ all_paths sd,
    c ← g sd; Ok (all_paths ++ c))) by (by intros ? [??] _).
  destruct (Forall2_of_total g (combinations2 nodes)) as [cs Hcs].
  { intros [s d] (Hs & Hd & _)%elem_of_combinations2.
    apply enumerate_paths_returns.
    - intros n [->|Hn]%elem_of_cons; by apply Hrows.
    - pose proof (length_filter
        (λ x, x ∉ {[(s, d).1]} ∪ default ∅ (@None (gset node))) nodes). lia. }
  rewrite (proj2 (for_loop_extend g _ [] _) (ex_intro _ cs (conj Hcs eq_refl))).
  rewrite result_bind_Ok. simpl app.
  assert (∀ q, q ∈ concat cs → length q ≠ 1) as Hlen.
  { intros q ([s d] & c & Hsd & Hc & Hq)%(elem_of_concat_Forall2 g _ _ _ Hcs).
    destruct (elem_of_combinations2 _ _ _ Hsd) as (_ & _ & Hne).
    apply (enumerate_paths_spec _ _ _ _ _ _ _ Hc) in Hq
      as (rest & -> & Hlast & _).
    destruct rest; [|simpl; lia]. specialize (Hne Hnd). naive_solver. }
  destruct (concat cs) as [|q all_paths] eqn:Hall.
  - assert (p ∈ concat cs) as Hpin; [|rewrite Hall in Hpin; by apply elem_of_nil in Hpin].
    apply (elem_of_concat_Forall2 g _ _ _ Hcs).
    apply list_elem_of_lookup in Hin as Hi. destruct Hi as [i Hi].
    destruct (Forall2_lookup_l _ _ _ _ _ Hcs Hi) as (c & _ & Hc).
    exists (src, dst), c. split_and!; [done|done|].
    by apply (enumerate_paths_spec _ _ _ _ _ _ _ Hc).
  - cbn [for_loop]. rewrite end_to_end_rate_diverges; [done|].
    apply Hlen. left.
Qed.

(** X21: a repeated node in [nodes] makes [find_optimal_path] raise. *)
Theorem find_optimal_path_repeated_node (fuel : nat)
    (network : QuantumNetwork) nodes distances :
  ¬ NoDup nodes →
  ∃ e, find_optimal_path fuel network nodes distances = Raise e.
Proof.
  intros [a Ha]%combinations2_repeated.
  destruct (find_optimal_path fuel network nodes distances) as [best|e] eqn:Hret;
    [|by eexists].
  apply find_optimal_path_returns_None in Hret as [_ Hnil].
  pose proof (proj1 (collect_paths_nil _ _ _ _) Hnil a a Ha) as Haa.
  destruct fuel as [|fuel]; [done|].
  by rewrite enumerate_paths_same in Haa.
Qed.

(** X22: when the first node has no row in the distance graph and the second
    node is another one, [find_optimal_path] raises [KeyError]. *)
Theorem find_optimal_path_missing_row (fuel : nat) (network : QuantumNetwork)
    (n0 n1 : node) nodes distances :
  n0 ≠ n1 → distances !! n0 = None →
  find_optimal_path (S fuel) network (n0 :: n1 :: nodes) distances
  = Raise KeyError.
Proof.
  intros Hne Hrow. unfold find_optimal_path.
  cbn [combinations2 map app for_loop].
  rewrite enumerate_paths_S. cbv zeta. rewrite decide_False by done.
  rewrite (for_loop_neighbors_KeyError _ _ _ _ _ _ Hrow); [done|].
  exists n1. split; [right; left|set_solver].
Qed.

End SearchFacts.

(** ** The same, at work on concrete topologies *)

Lemma example_edge_symmetric (a b : string) :
  edge example_distances a b → edge example_distances b a.
Proof.
  intros (row & Hrow & w & Hw). unfold example_distances in Hrow.
  repeat first
    [ apply lookup_insert_Some in Hrow as [[<- <-]|[? Hrow]]
    | apply lookup_singleton_Some in Hrow as [<- <-] ];
  repeat first
    [ apply lookup_insert_Some in Hw as [[<- <-]|[? Hw]]
    | apply lookup_singleton_Some in Hw as [<- <-] ];
  (eexists; split; [reflexivity|eexists; reflexivity]).
Qed.

Lemma example_simple_path_v1_v2 :
  simple_path example_nodes example_distances ∅ "v1" "v2" ["v1"; "v2"].
Proof.
  assert (enumerate_paths 2 "v1" "v2" example_nodes example_distances None
          = Ok [["v1"; "v2"]]) as Hret by (by vm_compute).
  apply (enumerate_paths_spec _ _ _ _ _ _ _ Hret). left.
Qed.

Lemma isolated_rows (n : string) :
  n ∈ isolated_nodes → is_Some (isolated_distances !! n).
Proof.
  unfold isolated_nodes. rewrite !elem_of_cons, elem_of_nil.
  intros [->|[->|[]]]; eexists; reflexivity.
Qed.

Lemma enumerate_paths_raises_KeyError_witness :
  ("v1" ≠ "v2"
   ∧ (∅ : gmap string (gmap string R)) !! "v1" = None
   ∧ ∃ n, n ∈ ["v1"; "v2"] ∧ n ≠ "v1" ∧ n ∉ default (∅ : gset string) None)
  ∧ enumerate_paths 1 "v1" "v2" ["v1"; "v2"] ∅ None = Raise KeyError.
Proof.
  assert ("v1" ≠ "v2") as Hne by done.
  assert ((∅ : gmap string (gmap string R)) !! "v1" = None) as Hrow
    by apply lookup_empty.
  assert (∃ n, n ∈ ["v1"; "v2"] ∧ n ≠ "v1"
               ∧ n ∉ default (∅ : gset string) None) as Hn.
  { exists "v2". split_and!; [right; left|done|apply not_elem_of_empty]. }
  split; [by split_and!|].
  exact (enumerate_paths_raises_KeyError 0 "v1" "v2" ["v1"; "v2"] ∅ None
           Hne Hrow Hn).
Defined.

Lemma enumerate_paths_all_visited_witness :
  ("v1" ≠ "v2"
   ∧ ∀ n, n ∈ ["v1"] → n = "v1" ∨ n ∈ default (∅ : gset string) None)
  ∧ enumerate_paths 1 "v1" "v2" ["v1"] ∅ None = Ok [].
Proof.
  assert ("v1" ≠ "v2") as Hne by done.
  assert (∀ n, n ∈ ["v1"] → n = "v1" ∨ n ∈ default (∅ : gset string) None)
    as Hall by (intros n ->%list_elem_of_singleton; by left).
  split; [by split|].
  exact (enumerate_paths_all_visited 0 "v1" "v2" ["v1"] ∅ None Hne Hall).
Defined.

Lemma enumerate_paths_avoids_visited_witness :
  enumerate_paths 4 "v1" "vj" example_nodes example_distances
    (Some {["v3"]}) = Ok [["v1"; "v2"; "vj"]]
  ∧ "v3" ∉ tail ["v1"; "v2"; "vj"].
Proof.
  assert (enumerate_paths 4 "v1" "vj" example_nodes example_distances
            (Some {["v3"]}) = Ok [["v1"; "v2"; "vj"]]) as Hret
    by (by vm_compute).
  split; [exact Hret|].
  apply (enumerate_paths_avoids_visited _ _ _ _ _ _ _ _ "v3" Hret).
  - left.
  - by apply elem_of_singleton.
Defined.

Lemma enumerate_paths_length_witness :
  length ["v1"; "v2"; "v3"; "vj"] ≤ length example_nodes.
Proof.
  assert ("v1" ∈ example_nodes) as Hsrc by left.
  assert (["v1"; "v2"; "v3"; "vj"]
          ∈ [["v1"; "v2"; "v3"; "vj"]; ["v1"; "v2"; "vj"]]) as Hp by left.
  exact (proj2 (proj2 (enumerate_paths_length 4 "v1" "vj" example_nodes
    example_distances None _ _ enumerate_paths_v1_vj Hp)) Hsrc).
Defined.

Lemma enumerate_paths_unknown_destination_witness :
  ("v1" ≠ "w" ∧ "w" ∉ example_nodes)
  ∧ enumerate_paths 5 "v1" "w" example_nodes example_distances None = Ok [].
Proof.
  assert ("v1" ≠ "w") as Hne by done.
  assert ("w" ∉ example_nodes) as Hw.
  { unfold example_nodes. rewrite !elem_of_cons, elem_of_nil.
    by intros [|[|[|[|[]]]]]. }
  split; [by split|].
  destruct (enumerate_paths_returns example_nodes example_distances 5
              "v1" "w" None) as [paths Hret].
  - intros n [->|Hn]%elem_of_cons; apply example_rows; [left|done].
  - pose proof (length_filter
      (λ x, x ∉ {["v1"]} ∪ default ∅ (@None (gset string))) example_nodes).
    simpl in *. lia.
  - rewrite Hret. f_equal.
    exact (enumerate_paths_unknown_destination 5 "v1" "w" example_nodes
             example_distances None paths Hne Hw Hret).
Defined.

Lemma enumerate_paths_direct_edge_witness :
  ("v1" ≠ "v2" ∧ "v2" ∈ example_nodes ∧ edge example_distances "v1" "v2")
  ∧ ["v1"; "v2"] ∈ [["v1"; "v2"]].
Proof.
  assert ("v1" ≠ "v2") as Hne by done.
  assert ("v2" ∈ example_nodes) as Hdst by (right; left).
  assert ("v2" ∉ default (∅ : gset string) None) as HV
    by apply not_elem_of_empty.
  assert (edge example_distances "v1" "v2") as Hedge
    by (eexists; split; [reflexivity|eexists; reflexivity]).
  assert (enumerate_paths 5 "v1" "v2" example_nodes example_distances None
          = Ok [["v1"; "v2"]]) as Hret by (by vm_compute).
  split; [by split_and!|].
  exact (enumerate_paths_direct_edge 5 "v1" "v2" example_nodes
           example_distances None _ Hne Hdst HV Hedge Hret).
Defined.

Lemma enumerate_paths_reverse_witness :
  ["vj"; "v3"; "v2"; "v1"]
  ∈ [["vj"; "v2"; "v1"]; ["vj"; "v3"; "v2"; "v1"]].
Proof.
  assert (enumerate_paths 4 "vj" "v1" example_nodes example_distances None
          = Ok [["vj"; "v2"; "v1"]; ["vj"; "v3"; "v2"; "v1"]]) as Hret'
    by (by vm_compute).
  assert ("v1" ∈ example_nodes) as Hsrc by left.
  assert ("vj" ∈ example_nodes) as Hdst by (do 3 right; left).
  apply (enumerate_paths_reverse 4 4 "v1" "vj" example_nodes
           example_distances _ _ example_edge_symmetric Hsrc Hdst
           enumerate_paths_v1_vj Hret' ["v1"; "v2"; "v3"; "vj"]).
  left.
Defined.

Lemma enumerate_paths_permutation_witness :
  [["v1"; "v2"; "v3"; "vj"]; ["v1"; "v2"; "vj"]]
  ≡ₚ [["v1"; "v2"; "vj"]; ["v1"; "v2"; "v3"; "vj"]].
Proof.
  assert (enumerate_paths 4 "v1" "vj" (reverse example_nodes)
            example_distances None
          = Ok [["v1"; "v2"; "vj"]; ["v1"; "v2"; "v3"; "vj"]]) as Hret'
    by (by vm_compute).
  assert (example_nodes ≡ₚ reverse example_nodes) as Hperm
    by (symmetry; apply reverse_Permutation).
  exact (enumerate_paths_permutation 4 4 "v1" "vj" example_nodes
           (reverse example_nodes) example_distances None _ _
           example_nodes_NoDup Hperm enumerate_paths_v1_vj Hret').
Defined.

Lemma find_optimal_path_never_a_path_witness :
  find_optimal_path 3 init isolated_nodes isolated_distances
    = Ok (None, 0%R)
  ∧ (@None (list string), 0%R) = (None, 0%R).
Proof.
  split; [exact find_optimal_path_isolated|].
  exact (find_optimal_path_never_a_path 3 init isolated_nodes
           isolated_distances _ find_optimal_path_isolated).
Defined.

Lemma find_optimal_path_few_nodes_witness :
  length ["v1"] ≤ 1
  ∧ find_optimal_path 0 init ["v1"] example_distances = Ok (None, 0%R).
Proof.
  assert (length ["v1"] ≤ 1) as Hlen by (simpl; lia).
  split; [exact Hlen|].
  exact (find_optimal_path_few_nodes 0 init ["v1"] example_distances Hlen).
Defined.

Lemma find_optimal_path_returns_iff_witness :
  (length isolated_nodes < 3
   ∧ ∀ n, n ∈ isolated_nodes → is_Some (isolated_distances !! n))
  ∧ ∀ src dst p, (src, dst) ∈ combinations2 isolated_nodes →
      ¬ simple_path isolated_nodes isolated_distances ∅ src dst p.
Proof.
  assert (length isolated_nodes < 3) as Hfuel by (simpl; lia).
  split; [split; [exact Hfuel|exact isolated_rows]|].
  apply (find_optimal_path_returns_iff 3 init isolated_nodes
           isolated_distances Hfuel isolated_rows).
  eexists. exact find_optimal_path_isolated.
Defined.

Lemma find_optimal_path_connected_raises_witness :
  (NoDup example_nodes ∧ length example_nodes < 5
   ∧ (∀ n, n ∈ example_nodes → is_Some (example_distances !! n))
   ∧ ∃ src dst p, (src, dst) ∈ combinations2 example_nodes
                  ∧ simple_path example_nodes example_distances ∅ src dst p)
  ∧ find_optimal_path 5 init example_nodes example_distances
    = Raise RecursionError.
Proof.
  assert (length example_nodes < 5) as Hfuel by (simpl; lia).
  assert (∃ src dst p, (src, dst) ∈ combinations2 example_nodes
            ∧ simple_path example_nodes example_distances ∅ src dst p)
    as Hconn.
  { exists "v1", "v2", ["v1"; "v2"].
    split; [rewrite combinations2_example; left|].
    exact example_simple_path_v1_v2. }
  split; [split_and!; [exact example_nodes_NoDup|exact Hfuel
                      |exact example_rows|exact Hconn]|].
  exact (find_optimal_path_connected_raises 5 init example_nodes
           example_distances example_nodes_NoDup Hfuel example_rows Hconn).
Defined.

Lemma find_optimal_path_repeated_node_witness :
  ¬ NoDup ["v1"; "v1"]
  ∧ ∃ e, find_optimal_path 5 init ["v1"; "v1"] example_distances = Raise e.
Proof.
  assert (¬ NoDup ["v1"; "v1"]) as Hdup.
  { intros [Hin _]%NoDup_cons. apply Hin. left. }
  split; [exact Hdup|].
  exact (find_optimal_path_repeated_node 5 init ["v1"; "v1"]
           example_distances Hdup).
Defined.

Lemma find_optimal_path_missing_row_witness :
  ("v1" ≠ "v2" ∧ (∅ : gmap string (gmap string R)) !! "v1" = None)
  ∧ find_optimal_path 1 init ["v1"; "v2"] ∅ = Raise KeyError.
Proof.
  assert ("v1" ≠ "v2") as Hne by done.
  assert ((∅ : gmap string (gmap string R)) !! "v1" = None) as Hrow
    by apply lookup_empty.
  split; [by split|].
  exact (find_optimal_path_missing_row 0 init "v1" "v2" [] ∅ Hne Hrow).
Defined.
